(** * ESQL validator listener (esql/esql_listener.py)

    A shallow embedding of [ESQLValidatorListener]: the parse tree it is
    handed by the ANTLR runtime, the listener object with its schema and its
    three lists, the handlers, and the tree walk that drives them. *)

From stdpp Require Import base option list strings gmap.

(** ** Parse trees *)

(** The context classes of the generated parser that the listener tells
    apart.  Modelled from the spec: the generated parser
    (esql/EsqlBaseParser.py) is not among the sources; its classes are the
    node kinds of the spec's data model.  [ComparisonContext] is an
    alternative of the valueExpression rule, [OperatorExpressionContext]
    stands for every alternative of the operatorExpression rule, and every
    class the listener never names is an [OtherContext]. *)
Inductive ctx_class : Type :=
  | QualifiedNameContext
  | SourceIdentifierContext
  | FromCommandContext
  | EvalCommandContext
  | WhereCommandContext
  | ComparisonContext
  | ValueExpressionDefaultContext
  | LogicalInContext
  | OperatorExpressionContext (alt : string)
  | NullLiteralContext
  | QualifiedIntegerLiteralContext
  | DecimalLiteralContext
  | IntegerLiteralContext
  | BooleanLiteralContext
  | StringLiteralContext
  | NumericArrayLiteralContext
  | BooleanArrayLiteralContext
  | StringArrayLiteralContext
  | OtherContext (rule : string).

#[global] Instance ctx_class_eq_dec : EqDecision ctx_class.
Proof. solve_decision. Defined.

(** A parse tree: a token, or a rule context with its children.  A context
    without children, whose [children] the runtime leaves at [None], is the
    one with the empty list. *)
#[local] Unset Elimination Schemes.
Inductive tree : Type :=
  | Terminal (text : string)
  | Rule (cls : ctx_class) (children : list tree).
#[local] Set Elimination Schemes.

Definition class_of (t : tree) : option ctx_class :=
  match t with
  | Terminal _ => None
  | Rule cls _ => Some cls
  end.

Definition getChildren (t : tree) : list tree :=
  match t with
  | Terminal _ => []
  | Rule _ cs => cs
  end.

(** [getText]: the text of a token, the concatenated text of the children of
    a rule context (the empty string when it has none). *)
Fixpoint getText (t : tree) : string :=
  match t with
  | Terminal s => s
  | Rule _ cs => foldr (λ c acc, getText c +:+ acc) "" cs
  end.

(** [isinstance(t, cls)] for one of the classes the listener names. *)
Definition isinstance (t : tree) (cls : ctx_class) : bool :=
  bool_decide (class_of t = Some cls).

(** Instances of the base classes [OperatorExpressionContext] and
    [ValueExpressionContext]. *)
Definition isOperatorExpression (t : tree) : bool :=
  match class_of t with
  | Some (OperatorExpressionContext _) => true
  | _ => false
  end.

Definition isValueExpression (t : tree) : bool :=
  match class_of t with
  | Some ValueExpressionDefaultContext | Some ComparisonContext => true
  | _ => false
  end.

(** [getTypedRuleContext(type, i)]: the i-th child that is an instance of the
    class, [None] when there are fewer. *)
Definition getTypedRuleContext (is_a : tree → bool) (t : tree) (i : nat)
  : option tree :=
  filter (λ c, is_a c = true) (getChildren t) !! i.

Definition operatorExpression (t : tree) (i : nat) : option tree :=
  getTypedRuleContext isOperatorExpression t i.

Definition valueExpression (t : tree) (i : nat) : option tree :=
  getTypedRuleContext isValueExpression t i.

(** A context as a handler receives it: the node and the chain of its
    ancestors, nearest first ([parentCtx], [parentCtx.parentCtx], ...). *)
Record ctx : Type := Ctx { node : tree; ancestors : list tree }.

Definition parentCtx (c : ctx) : option ctx :=
  match ancestors c with
  | [] => None
  | p :: ps => Some (Ctx p ps)
  end.

(** [isinstance(ctx.parentCtx, cls)]; a missing parent is no instance. *)
Definition parent_isinstance (c : ctx) (cls : ctx_class) : bool :=
  match parentCtx c with
  | None => false
  | Some p => isinstance (node p) cls
  end.

(** ** The listener object and its effects *)

Record listener : Type := Listener {
  schema : gmap string string;
  field_list : list string;
  indices : list string;
  get_event_datasets : list string
}.

(** [__init__]. *)
Definition init (sch : gmap string string) : listener :=
  Listener sch [] [] [].

Inductive exn : Type :=
  | ESQLSyntaxError (msg : string)
  | ValueError (msg : string)
  | AttributeError (msg : string)
  | TypeError (msg : string).

Inductive outcome (A : Type) : Type :=
  | Returned (a : A)
  | Raised (e : exn).
Arguments Returned {A} a.
Arguments Raised {A} e.

(** A method body: it runs on the listener object, returns or raises, and
    leaves the object as it is at that moment. *)
Definition M (A : Type) : Type := listener → outcome A * listener.

Definition ret {A} (a : A) : M A := λ self, (Returned a, self).

Definition raise {A} (e : exn) : M A := λ self, (Raised e, self).

Definition bind {A B} (m : M A) (k : A → M B) : M B :=
  λ self,
    match m self with
    | (Returned a, self') => k a self'
    | (Raised e, self') => (Raised e, self')
    end.

Definition lift {A} (o : outcome A) : M A := λ self, (o, self).

Declare Scope listener_scope.
Delimit Scope listener_scope with M.
Notation "'let!' x ':=' m 'in' k" := (bind m (λ x, k))
  (at level 10, x pattern, m at level 100, k at level 200)
  : listener_scope.
Notation "m '>>' k" := (bind m (λ _, k))
  (at level 100, k at level 200, right associativity) : listener_scope.

Definition get_schema : M (gmap string string) :=
  λ self, (Returned (schema self), self).

Definition add_field (f : string) (self : listener) : listener :=
  Listener (schema self) (field_list self ++ [f]) (indices self)
           (get_event_datasets self).

Definition add_index (i : string) (self : listener) : listener :=
  Listener (schema self) (field_list self) (indices self ++ [i])
           (get_event_datasets self).

Definition add_event_dataset (d : string) (self : listener) : listener :=
  Listener (schema self) (field_list self) (indices self)
           (get_event_datasets self ++ [d]).

Definition field_list_append (f : string) : M unit :=
  λ self, (Returned tt, add_field f self).

Definition indices_append (i : string) : M unit :=
  λ self, (Returned tt, add_index i self).

Definition get_event_datasets_append (d : string) : M unit :=
  λ self, (Returned tt, add_event_dataset d self).

(** [str(x)] of an optional string, for the f-strings: [None] prints as
    the word None. *)
Definition py_str (o : option string) : string := default "None" o.

Definition no_getText : exn :=
  AttributeError "'NoneType' object has no attribute 'getText'".
Definition no_getChild : exn :=
  AttributeError "'NoneType' object has no attribute 'getChild'".
Definition no_len : exn :=
  TypeError "object of type 'NoneType' has no len()".

(** [getChild(i)] of a rule context: the i-th child, [None] past the end;
    on a context without children it takes the length of [None] and
    raises.  A token has no children and answers [None]. *)
Definition getChild (t : tree) (i : nat) : outcome (option tree) :=
  match t with
  | Terminal _ => Returned None
  | Rule _ [] => Raised no_len
  | Rule _ cs => Returned (cs !! i)
  end.

(** ** The handlers *)

Local Open Scope listener_scope.

Definition enterQualifiedName (c : ctx) : M unit :=
  if negb (parent_isinstance c EvalCommandContext) then
    let field := getText (node c) in
    field_list_append field >>
    let! sch := get_schema in
    match sch !! field with
    | None => raise (ESQLSyntaxError ("Invalid field: " +:+ field))
    | Some _ =>
        if bool_decide (field = "event.dataset") then
          match parentCtx c with
          | None => raise no_getText
          | Some p => get_event_datasets_append (getText (node p))
          end
        else ret tt
    end
  else ret tt.

Definition enterSourceIdentifier (c : ctx) : M unit :=
  if negb (parent_isinstance c FromCommandContext) then
    let field := getText (node c) in
    field_list_append field >>
    let! sch := get_schema in
    match sch !! field with
    | None => raise (ValueError ("Invalid field: " +:+ field))
    | Some _ => ret tt
    end
  else indices_append (getText (node c)).

(** The loop of [find_associated_field_and_context], over the ancestors from
    the parent upwards. *)
Fixpoint search_ancestors (ps : list tree)
  : outcome (option string * option string) :=
  match ps with
  | [] => Returned (None, None)
  | parent_ctx :: ps' =>
      if isinstance parent_ctx ComparisonContext then
        match operatorExpression parent_ctx 0 with
        | None => Raised no_getChild
        | Some oe =>
            match getChild oe 0 with
            | Raised e => Raised e
            | Returned field_ctx =>
                Returned (getText <$> field_ctx, Some "Comparison")
            end
        end
      else if isinstance parent_ctx LogicalInContext then
        match valueExpression parent_ctx 0 with
        | None => Raised no_getChild
        | Some ve =>
            match getChild ve 0 with
            | Raised e => Raised e
            | Returned field_ctx =>
                Returned (getText <$> field_ctx, Some "LogicalIn")
            end
        end
      else search_ancestors ps'
  end.

Definition find_associated_field_and_context (c : ctx)
  : outcome (option string * option string) :=
  search_ancestors (ancestors c).

(** [get_literal_type]; [None] is the value a Python function returns when
    it falls off its end. *)
Definition get_literal_type (c : ctx) (context_type : option string)
  : option string :=
  if bool_decide (context_type = Some "Comparison")
     || bool_decide (context_type = Some "LogicalIn") then
    match class_of (node c) with
    | Some StringLiteralContext => Some "keyword"
    | Some IntegerLiteralContext
    | Some QualifiedIntegerLiteralContext => Some "integer"
    | Some DecimalLiteralContext => Some "decimal"
    | Some BooleanLiteralContext => Some "boolean"
    | _ => None
    end
  else Some "unknown".

(** The message of the type error; the two adjacent f-strings are joined
    without a space. *)
Definition mismatch_message (field : string) (context_type : option string)
    (expected_type : string) (actual_type : option string) : string :=
  "Field '" +:+ field +:+ "' in context '" +:+ py_str context_type +:+ "'"
  +:+ "expects type '" +:+ expected_type +:+ "', but got '"
  +:+ py_str actual_type +:+ "'".

(** Truth value of [field]: [None] and the empty string are false. *)
Definition truthy (field : option string) : bool :=
  match field with
  | None => false
  | Some f => negb (bool_decide (f = ""))
  end.

Definition check_literal_type (c : ctx) : M unit :=
  let! (field, context_type) := lift (find_associated_field_and_context c) in
  let! sch := get_schema in
  match field with
  | Some f =>
      if truthy field then
        match sch !! f with
        | Some expected_type =>
            let actual_type := get_literal_type c context_type in
            if bool_decide (Some expected_type ≠ actual_type) then
              raise (ValueError (mismatch_message f context_type
                                   expected_type actual_type))
            else ret tt
        | None => ret tt
        end
      else ret tt
  | None => ret tt
  end.

Definition enterNullLiteral (c : ctx) : M unit := check_literal_type c.
Definition enterQualifiedIntegerLiteral (c : ctx) : M unit :=
  check_literal_type c.
Definition enterDecimalLiteral (c : ctx) : M unit := check_literal_type c.
Definition enterIntegerLiteral (c : ctx) : M unit := check_literal_type c.
Definition enterBooleanLiteral (c : ctx) : M unit := check_literal_type c.
Definition enterStringLiteral (c : ctx) : M unit := check_literal_type c.
Definition enterNumericArrayLiteral (c : ctx) : M unit :=
  check_literal_type c.
Definition enterBooleanArrayLiteral (c : ctx) : M unit :=
  check_literal_type c.
Definition enterStringArrayLiteral (c : ctx) : M unit :=
  check_literal_type c.

(** ** The tree walk *)

(** The handler a context's [enterRule] reaches on this listener: the ones
    the class overrides; every other one is the inherited empty method. *)
Definition enterRule (c : ctx) : M unit :=
  match class_of (node c) with
  | Some QualifiedNameContext => enterQualifiedName c
  | Some SourceIdentifierContext => enterSourceIdentifier c
  | Some NullLiteralContext => enterNullLiteral c
  | Some QualifiedIntegerLiteralContext => enterQualifiedIntegerLiteral c
  | Some DecimalLiteralContext => enterDecimalLiteral c
  | Some IntegerLiteralContext => enterIntegerLiteral c
  | Some BooleanLiteralContext => enterBooleanLiteral c
  | Some StringLiteralContext => enterStringLiteral c
  | Some NumericArrayLiteralContext => enterNumericArrayLiteral c
  | Some BooleanArrayLiteralContext => enterBooleanArrayLiteral c
  | Some StringArrayLiteralContext => enterStringArrayLiteral c
  | _ => ret tt
  end.

(** Run a method on each element of a list, in order, until one raises. *)
Definition for_each {A} (f : A → M unit) : list A → M unit :=
  fix go (l : list A) : M unit :=
    match l with
    | [] => ret tt
    | a :: l' => f a >> go l'
    end.

(** Modelled from the spec: the walker is the ANTLR runtime's, not among the
    sources.  It enters a rule context, then walks its children from left to
    right (a depth-first, parent-before-children pass); tokens and the exit
    events reach only inherited empty methods.  [ps] is the chain of
    ancestors of [t]. *)
Fixpoint walk (ps : list tree) (t : tree) : M unit :=
  match t with
  | Terminal _ => ret tt
  | Rule _ cs => enterRule (Ctx t ps) >> for_each (walk (t :: ps)) cs
  end.

(** A validation pass: a fresh listener on the schema, walked over the whole
    tree. *)
Definition validate (sch : gmap string string) (t : tree)
  : outcome unit * listener :=
  walk [] t (init sch).

(** The contexts the walk enters, in the order it enters them. *)
Fixpoint contexts (ps : list tree) (t : tree) : list ctx :=
  match t with
  | Terminal _ => []
  | Rule _ cs => Ctx t ps :: concat (map (contexts (t :: ps)) cs)
  end.

(** ** Vocabulary of the statements *)

(** An ancestor at which the search stops. *)
Definition recognized (t : tree) : bool :=
  isinstance t ComparisonContext || isinstance t LogicalInContext.



(** The declared types the checker infers, by the class of the literal. *)
Definition literal_types : list (ctx_class * string) :=
  [ (StringLiteralContext, "keyword");
    (IntegerLiteralContext, "integer");
    (QualifiedIntegerLiteralContext, "integer");
    (DecimalLiteralContext, "decimal");
    (BooleanLiteralContext, "boolean") ].

(** The literal classes for which no type is inferred. *)
Definition untyped_literals : list ctx_class :=
  [ NullLiteralContext; NumericArrayLiteralContext;
    BooleanArrayLiteralContext; StringArrayLiteralContext ].

(** [extends s s']: [s'] is [s] with entries added at the end of its lists,
    on the same schema. *)
Record extends (s s' : listener) : Prop := Extends {
  extends_schema : schema s' = schema s;
  extends_field_list : field_list s `prefix_of` field_list s';
  extends_indices : indices s `prefix_of` indices s';
  extends_datasets : get_event_datasets s `prefix_of` get_event_datasets s'
}.

(** A method that, returning or raising, only adds at the end. *)
Definition appends_only {A} (m : M A) : Prop := ∀ s, extends s (m s).2.

(** The entry one context adds to [get_event_datasets] when its handler
    returns: the text of the immediate parent of a qualified name that
    reads event.dataset and does not sit directly under an eval command. *)
Definition dataset_entry (c : ctx) : list string :=
  match class_of (node c), ancestors c with
  | Some QualifiedNameContext, p :: _ =>
      if negb (isinstance p EvalCommandContext)
         && bool_decide (getText (node c) = "event.dataset")
      then [getText p]
      else []
  | _, _ => []
  end.

(** The entries of a whole tree, in the order the walk enters its nodes. *)
Definition dataset_entries (ps : list tree) (t : tree) : list string :=
  concat (map dataset_entry (contexts ps t)).

(** [records m l]: when [m] returns it has added exactly [l] to
    [get_event_datasets]; when it raises it has added a prefix of [l]. *)
Definition records {A} (m : M A) (l : list string) : Prop :=
  ∀ s,
    match m s with
    | (Returned _, s') => get_event_datasets s' = get_event_datasets s ++ l
    | (Raised _, s') =>
        ∃ l', l' `prefix_of` l
              ∧ get_event_datasets s' = get_event_datasets s ++ l'
    end.

(** ** The where-clause lookup *)

(** The loop of [get_event_dataset].  The accessor [sourceIdentifier()] of
    the where-command context belongs to the generated parser, which is not
    among the sources; it is a parameter here: it raises, or returns [None],
    or returns a node. *)
Fixpoint search_where (sourceIdentifier : tree → outcome (option tree))
    (ps : list tree) : outcome (option string) :=
  match ps with
  | [] => Returned None
  | parent_ctx :: ps' =>
      if isinstance parent_ctx WhereCommandContext then
        match sourceIdentifier parent_ctx with
        | Raised e => Raised e
        | Returned None => Raised no_getText
        | Returned (Some n) => Returned (Some (getText n))
        end
      else search_where sourceIdentifier ps'
  end.

Definition get_event_dataset (sourceIdentifier : tree → outcome (option tree))
    (c : ctx) : outcome (option string) :=
  search_where sourceIdentifier (ancestors c).

(** ** What each context contributes to the lists *)

(** The entry a context adds to [field_list]: the text of a qualified name
    that is no child of an eval command, or of a source identifier that is
    no child of a from command. *)
Definition field_entry (c : ctx) : list string :=
  match class_of (node c) with
  | Some QualifiedNameContext =>
      if parent_isinstance c EvalCommandContext then []
      else [getText (node c)]
  | Some SourceIdentifierContext =>
      if parent_isinstance c FromCommandContext then []
      else [getText (node c)]
  | _ => []
  end.

(** The entry a context adds to [indices]: the text of a source identifier
    that is a child of a from command. *)
Definition index_entry (c : ctx) : list string :=
  match class_of (node c) with
  | Some SourceIdentifierContext =>
      if parent_isinstance c FromCommandContext then [getText (node c)]
      else []
  | _ => []
  end.

(** [adds proj m l]: when [m] returns it has added exactly [l] at the end
    of the list [proj]; when it raises it has added a prefix of [l]. *)
Definition adds {A} (proj : listener → list string) (m : M A)
    (l : list string) : Prop :=
  ∀ s,
    match m s with
    | (Returned _, s') => proj s' = proj s ++ l
    | (Raised _, s') => ∃ l', l' `prefix_of` l ∧ proj s' = proj s ++ l'
    end.

(** The errors a handler can raise, as the listener [s] it runs on allows
    them: an unknown field, a type mismatch in one of the two contexts with
    an actual type that is none of the declared one and the word unknown,
    or a method or [len] called on [None]. *)
Inductive handler_error (s : listener) : exn → Prop :=
  | unknown_name f :
      schema s !! f = None →
      handler_error s (ESQLSyntaxError ("Invalid field: " +:+ f))
  | unknown_source f :
      schema s !! f = None →
      handler_error s (ValueError ("Invalid field: " +:+ f))
  | type_mismatch f ck T actual :
      f ≠ "" →
      ck = "Comparison" ∨ ck = "LogicalIn" →
      schema s !! f = Some T →
      actual ≠ Some T →
      actual ≠ Some "unknown" →
      handler_error s (ValueError (mismatch_message f (Some ck) T actual))
  | none_getChild : handler_error s no_getChild
  | none_len : handler_error s no_len
  | none_getText : handler_error s no_getText.

(** ** Parse trees of some queries *)

Module Queries.

Definition dquote : string := String (Ascii.ascii_of_nat 34) EmptyString.
Definition quoted (s : string) : string := dquote +:+ s +:+ dquote.

Definition other (rule : string) (cs : list tree) : tree :=
  Rule (OtherContext rule) cs.

Definition identifier (s : string) : tree := other "identifier" [Terminal s].

(** A name of one part, and a dotted name of two. *)
Definition name1 (a : string) : tree :=
  Rule QualifiedNameContext [identifier a].
Definition name2 (a b : string) : tree :=
  Rule QualifiedNameContext [identifier a; Terminal "."; identifier b].

Definition operand (primary : tree) : tree :=
  Rule (OperatorExpressionContext "operatorExpressionDefault") [primary].
Definition dereference (qn : tree) : tree :=
  operand (other "dereference" [qn]).
Definition constant (lit : tree) : tree :=
  operand (other "constantDefault" [lit]).

Definition string_lit (s : string) : tree :=
  Rule StringLiteralContext [other "string" [Terminal (quoted s)]].
Definition integer_lit (s : string) : tree :=
  Rule IntegerLiteralContext [other "integerValue" [Terminal s]].
Definition null_lit : tree := Rule NullLiteralContext [Terminal "null"].

Definition comparison (l : tree) (op : string) (r : tree) : tree :=
  Rule ComparisonContext [l; other "comparisonOperator" [Terminal op]; r].

Definition source_id (idx : string) : tree :=
  Rule SourceIdentifierContext [Terminal idx].
Definition from_cmd (idx : string) : tree :=
  Rule FromCommandContext [Terminal "from"; source_id idx].

Definition where_cmd (cond : tree) : tree :=
  Rule WhereCommandContext
    [Terminal "where"; other "booleanDefault" [cond]].

(** [source | command], and the ancestors of each half. *)
Definition composite (source command : tree) : tree :=
  other "compositeQuery"
    [other "singleCommandQuery" [other "sourceCommand" [source]];
     Terminal "|";
     other "processingCommand" [command]].
Definition query (source command : tree) : tree :=
  other "singleStatement" [composite source command; Terminal "<EOF>"].

Definition above_source (source command : tree) : list tree :=
  [other "sourceCommand" [source];
   other "singleCommandQuery" [other "sourceCommand" [source]];
   composite source command; query source command].
Definition above_command (source command : tree) : list tree :=
  [other "processingCommand" [command];
   composite source command; query source command].

(** The ancestors of the condition of [source | where cond]. *)
Definition above_condition (source cond : tree) : list tree :=
  [other "booleanDefault" [cond]; where_cmd cond]
  ++ above_command source (where_cmd cond).

(** The ancestors of the two operands' innermost nodes in
    [source | where name op lit]. *)
Definition above_name (source qn : tree) (op : string) (r : tree)
  : list tree :=
  [other "dereference" [qn]; dereference qn; comparison (dereference qn) op r]
  ++ above_condition source (comparison (dereference qn) op r).
Definition above_literal (source l : tree) (op : string) (lit : tree)
  : list tree :=
  [other "constantDefault" [lit]; constant lit;
   comparison l op (constant lit)]
  ++ above_condition source (comparison l op (constant lit)).

(** [from logs-* | where event.dataset == "nginx"]. *)
Definition dataset_cmp : tree :=
  comparison (dereference (name2 "event" "dataset")) "=="
             (constant (string_lit "nginx")).
Definition dataset_query : tree :=
  query (from_cmd "logs-*") (where_cmd dataset_cmp).
Definition dataset_schema : gmap string string :=
  {[ "event.dataset" := "keyword" ]}.
Definition nginx_ctx : ctx :=
  Ctx (string_lit "nginx")
      (above_literal (from_cmd "logs-*")
         (dereference (name2 "event" "dataset")) "==" (string_lit "nginx")).
Definition logs_ctx : ctx :=
  Ctx (source_id "logs-*")
      (from_cmd "logs-*"
       :: above_source (from_cmd "logs-*") (where_cmd dataset_cmp)).

(** [from logs-* | where count == "five"]. *)
Definition count_cmp : tree :=
  comparison (dereference (name1 "count")) "=="
             (constant (string_lit "five")).
Definition count_query : tree :=
  query (from_cmd "logs-*") (where_cmd count_cmp).
Definition count_schema : gmap string string := {[ "count" := "integer" ]}.
Definition five_ctx : ctx :=
  Ctx (string_lit "five")
      (above_literal (from_cmd "logs-*")
         (dereference (name1 "count")) "==" (string_lit "five")).

(** [from logs-* | where host.name == null]. *)
Definition null_cmp : tree :=
  comparison (dereference (name2 "host" "name")) "==" (constant null_lit).
Definition null_query : tree :=
  query (from_cmd "logs-*") (where_cmd null_cmp).
Definition host_schema : gmap string string :=
  {[ "host.name" := "keyword" ]}.
Definition null_ctx : ctx :=
  Ctx null_lit
      (above_literal (from_cmd "logs-*")
         (dereference (name2 "host" "name")) "==" null_lit).

(** [from logs-* | where missing_field == 1]. *)
Definition missing_cmp : tree :=
  comparison (dereference (name1 "missing_field")) "=="
             (constant (integer_lit "1")).
Definition missing_query : tree :=
  query (from_cmd "logs-*") (where_cmd missing_cmp).
Definition missing_ctx : ctx :=
  Ctx (name1 "missing_field")
      (above_name (from_cmd "logs-*") (name1 "missing_field") "=="
         (constant (integer_lit "1"))).
Definition one_ctx : ctx :=
  Ctx (integer_lit "1")
      (above_literal (from_cmd "logs-*")
         (dereference (name1 "missing_field")) "==" (integer_lit "1")).

(** [from idx | eval b = a + 1]: the assigned name is a child of a
    field node, two levels below the eval command. *)
Definition eval_sum : tree :=
  other "booleanDefault"
    [Rule ValueExpressionDefaultContext
       [Rule (OperatorExpressionContext "arithmeticBinary")
          [dereference (name1 "a"); Terminal "+";
           constant (integer_lit "1")]]].
Definition eval_field : tree :=
  other "field" [name1 "b"; Terminal "="; eval_sum].
Definition eval_cmd : tree :=
  Rule EvalCommandContext [Terminal "eval"; other "fields" [eval_field]].
Definition eval_query : tree := query (from_cmd "idx") eval_cmd.
Definition eval_schema : gmap string string := {[ "a" := "integer" ]}.
Definition b_ctx : ctx :=
  Ctx (name1 "b")
      ([eval_field; other "fields" [eval_field]; eval_cmd]
       ++ above_command (from_cmd "idx") eval_cmd).

(** [from logs-* | drop event.dataset]: a source identifier outside the
    from command. *)
Definition drop_cmd : tree :=
  other "dropCommand" [Terminal "drop"; source_id "event.dataset"].
Definition drop_query : tree := query (from_cmd "logs-*") drop_cmd.
Definition dropped_ctx : ctx :=
  Ctx (source_id "event.dataset")
      (drop_cmd :: above_command (from_cmd "logs-*") drop_cmd).


(** A name directly under an eval command. *)
Definition direct_eval : tree :=
  Rule EvalCommandContext [Terminal "eval"; name1 "b"].
Definition direct_ctx : ctx := Ctx (name1 "b") [direct_eval].

End Queries.

(** ** Trees at the edges *)

Module Edges.

(** A comparison without operands, around a null literal. *)
Definition bare_cmp : tree := Rule ComparisonContext [Queries.null_lit].
Definition bare_ctx : ctx := Ctx Queries.null_lit [bare_cmp].

(** A comparison whose first operand starts with a node without text, and
    a schema with the empty key. *)
Definition blank_cmp : tree :=
  Queries.comparison (Queries.operand (Queries.other "dereference" [])) "=="
    (Queries.constant (Queries.string_lit "x")).
Definition blank_ctx : ctx :=
  Ctx (Queries.string_lit "x")
      [Queries.other "constantDefault" [Queries.string_lit "x"];
       Queries.constant (Queries.string_lit "x"); blank_cmp].
Definition blank_schema : gmap string string := {[ "" := "integer" ]}.

(** A comparison whose first operand has no children. *)
Definition hollow_cmp : tree :=
  Rule ComparisonContext
    [Rule (OperatorExpressionContext "operatorExpressionDefault") [];
     Queries.other "comparisonOperator" [Terminal "=="];
     Queries.constant Queries.null_lit].
Definition hollow_ctx : ctx :=
  Ctx Queries.null_lit
      [Queries.other "constantDefault" [Queries.null_lit];
       Queries.constant Queries.null_lit; hollow_cmp].

(** A tree that is nothing but the name event.dataset. *)
Definition lone_ctx : ctx := Ctx (Queries.name2 "event" "dataset") [].

(** An accessor that returns the first source identifier among the
    children, and a where command that has one. *)
Definition first_source (t : tree) : outcome (option tree) :=
  Returned
    (getTypedRuleContext (λ c, isinstance c SourceIdentifierContext) t 0).
Definition sourced_where : tree :=
  Rule WhereCommandContext
    [Terminal "where"; Queries.source_id "nginx";
     Queries.other "booleanDefault" [Queries.null_cmp]].
Definition sourced_ctx : ctx :=
  Ctx Queries.null_lit
      ([Queries.other "constantDefault" [Queries.null_lit];
        Queries.constant Queries.null_lit; Queries.null_cmp;
        Queries.other "booleanDefault" [Queries.null_cmp]; sourced_where]
       ++ [Queries.where_cmd Queries.null_cmp]).

End Edges.

(** ** Reasoning principles *)

(** Induction over parse trees, with the hypothesis on every child. *)
Lemma tree_ind (P : tree → Prop) :
  (∀ s, P (Terminal s)) →
  (∀ cls cs, Forall P cs → P (Rule cls cs)) →
  ∀ t, P t.
Proof.
  intros Hterm Hrule. fix IH 1. intros [s | cls cs]; [apply Hterm |].
  apply Hrule. induction cs as [| c cs IHcs]; constructor.
  - apply IH.
  - apply IHcs.
Qed.

Lemma parent_isinstance_cons t p ps cls :
  parent_isinstance (Ctx t (p :: ps)) cls = isinstance p cls.
Proof. reflexivity. Qed.

(** ** The reference collector *)

Lemma enterQualifiedName_unknown c s :
  parent_isinstance c EvalCommandContext = false →
  schema s !! getText (node c) = None →
  enterQualifiedName c s
  = (Raised (ESQLSyntaxError ("Invalid field: " +:+ getText (node c))),
     add_field (getText (node c)) s).
Proof.
  intros Hpar Hsch. unfold enterQualifiedName. rewrite Hpar. cbn.
  unfold bind, field_list_append, get_schema. cbn. by rewrite Hsch.
Qed.

Lemma enterQualifiedName_known c s T :
  parent_isinstance c EvalCommandContext = false →
  schema s !! getText (node c) = Some T →
  getText (node c) ≠ "event.dataset" →
  enterQualifiedName c s = (Returned tt, add_field (getText (node c)) s).
Proof.
  intros Hpar Hsch Hne. unfold enterQualifiedName. rewrite Hpar. cbn.
  unfold bind, field_list_append, get_schema. cbn. rewrite Hsch.
  by rewrite bool_decide_eq_false_2.
Qed.

Lemma enterQualifiedName_dataset t p ps s T :
  isinstance p EvalCommandContext = false →
  getText t = "event.dataset" →
  schema s !! "event.dataset" = Some T →
  enterQualifiedName (Ctx t (p :: ps)) s
  = (Returned tt, add_event_dataset (getText p) (add_field "event.dataset" s)).
Proof.
  intros Hpar Htxt Hsch. unfold enterQualifiedName.
  rewrite parent_isinstance_cons, Hpar. cbn. rewrite Htxt.
  unfold bind, field_list_append, get_schema. cbn. by rewrite Hsch.
Qed.

Lemma enterSourceIdentifier_from c s :
  parent_isinstance c FromCommandContext = true →
  enterSourceIdentifier c s = (Returned tt, add_index (getText (node c)) s).
Proof. unfold enterSourceIdentifier. by intros ->. Qed.

Lemma enterSourceIdentifier_field c s :
  parent_isinstance c FromCommandContext = false →
  enterSourceIdentifier c s
  = (match schema s !! getText (node c) with
     | Some _ => Returned tt
     | None => Raised (ValueError ("Invalid field: " +:+ getText (node c)))
     end,
     add_field (getText (node c)) s).
Proof.
  intros Hpar. unfold enterSourceIdentifier. rewrite Hpar. cbn.
  unfold bind, field_list_append, get_schema. cbn.
  by destruct (schema s !! getText (node c)).
Qed.

(** ** The literal type checker *)

Lemma search_ancestors_skip pre ps :
  Forall (λ a, recognized a = false) pre →
  search_ancestors (pre ++ ps) = search_ancestors ps.
Proof.
  induction 1 as [| a pre Ha _ IH]; [done |].
  apply orb_false_iff in Ha as [Hc Hl]. cbn. by rewrite Hc, Hl.
Qed.


Lemma getChild_raised t i e : getChild t i = Raised e → e = no_len.
Proof. destruct t as [txt | cls [| c cs]]; cbn; congruence. Qed.



(** Whatever the search returns with a field carries one of the two context
    names. *)
Lemma search_ancestors_context ps f ck :
  search_ancestors ps = Returned (Some f, ck) →
  ck = Some "Comparison" ∨ ck = Some "LogicalIn".
Proof.
  induction ps as [| p ps IH]; cbn; [done |].
  destruct (isinstance p ComparisonContext).
  { destruct (operatorExpression p 0) as [oe |]; [| done].
    destruct (getChild oe 0); [| done]. intros [= _ <-]. by left. }
  destruct (isinstance p LogicalInContext); [| done].
  destruct (valueExpression p 0) as [ve |]; [| done].
  destruct (getChild ve 0); [| done]. intros [= _ <-]. by right.
Qed.

Lemma check_literal_type_unfold c s fld ck :
  find_associated_field_and_context c = Returned (fld, ck) →
  check_literal_type c s
  = match fld with
    | Some f =>
        if truthy fld then
          match schema s !! f with
          | Some expected_type =>
              if bool_decide (Some expected_type ≠ get_literal_type c ck)
              then (Raised (ValueError
                      (mismatch_message f ck expected_type
                         (get_literal_type c ck))), s)
              else (Returned tt, s)
          | None => (Returned tt, s)
          end
        else (Returned tt, s)
    | None => (Returned tt, s)
    end.
Proof.
  intros Hfind. unfold check_literal_type, bind, lift, get_schema.
  rewrite Hfind. cbn. destruct fld as [f |]; [| done].
  destruct (truthy (Some f)); [| done].
  destruct (schema s !! f); [| done]. by case_bool_decide.
Qed.

(** A failed search is a failed check: the error of the search propagates. *)
Lemma check_literal_type_propagates c s e :
  find_associated_field_and_context c = Raised e →
  check_literal_type c s = (Raised e, s).
Proof.
  intros Hfind. unfold check_literal_type, bind, lift. by rewrite Hfind.
Qed.

(** The check never touches the listener. *)
Lemma check_literal_type_state c s : (check_literal_type c s).2 = s.
Proof.
  destruct (find_associated_field_and_context c) as [[fld ck] | e] eqn:Hfind.
  - rewrite (check_literal_type_unfold _ _ _ _ Hfind).
    destruct fld; [| done]. destruct (truthy _); [| done].
    destruct (schema s !! _); [| done]. by case_bool_decide.
  - by rewrite (check_literal_type_propagates _ _ _ Hfind).
Qed.

Lemma get_literal_type_typed c ck cls U :
  ck = Some "Comparison" ∨ ck = Some "LogicalIn" →
  class_of (node c) = Some cls →
  (cls, U) ∈ literal_types →
  get_literal_type c ck = Some U.
Proof.
  intros Hck Hcls Hin. unfold get_literal_type. rewrite Hcls.
  unfold literal_types in Hin. rewrite !elem_of_cons in Hin.
  destruct Hck as [-> | ->]; cbn;
    destruct Hin as [[= -> ->] | [[= -> ->] | [[= -> ->] | [[= -> ->] |
                    [[= -> ->] | Hnil]]]]]; try done;
    by apply elem_of_nil in Hnil.
Qed.

Lemma get_literal_type_untyped c ck cls :
  ck = Some "Comparison" ∨ ck = Some "LogicalIn" →
  class_of (node c) = Some cls →
  cls ∈ untyped_literals →
  get_literal_type c ck = None.
Proof.
  intros Hck Hcls Hin. unfold get_literal_type. rewrite Hcls.
  unfold untyped_literals in Hin. rewrite !elem_of_cons in Hin.
  destruct Hck as [-> | ->]; cbn;
    destruct Hin as [-> | [-> | [-> | [-> | Hnil]]]]; try done;
    by apply elem_of_nil in Hnil.
Qed.

(** ** What a pass does to the three lists *)

#[global] Instance extends_preorder : PreOrder extends.
Proof.
  split.
  - intros s. by split.
  - intros s1 s2 s3 [Hs1 Hf1 Hi1 Hd1] [Hs2 Hf2 Hi2 Hd2]. split.
    + congruence.
    + by etrans.
    + by etrans.
    + by etrans.
Qed.

Create HintDb appends.

Lemma appends_only_ret {A} (a : A) : appends_only (ret a).
Proof. intros s. reflexivity. Qed.

Lemma appends_only_raise {A} e : appends_only (@raise A e).
Proof. intros s. reflexivity. Qed.

Lemma appends_only_lift {A} (o : outcome A) : appends_only (lift o).
Proof. intros s. reflexivity. Qed.

Lemma appends_only_get_schema : appends_only get_schema.
Proof. intros s. reflexivity. Qed.

Lemma appends_only_field_list_append f : appends_only (field_list_append f).
Proof. intros s. split; cbn; try done. by apply prefix_app_r. Qed.

Lemma appends_only_indices_append i : appends_only (indices_append i).
Proof. intros s. split; cbn; try done. by apply prefix_app_r. Qed.

Lemma appends_only_get_event_datasets_append d :
  appends_only (get_event_datasets_append d).
Proof. intros s. split; cbn; try done. by apply prefix_app_r. Qed.

Lemma appends_only_bind {A B} (m : M A) (k : A → M B) :
  appends_only m → (∀ a, appends_only (k a)) → appends_only (bind m k).
Proof.
  intros Hm Hk s. specialize (Hm s). unfold bind.
  destruct (m s) as [[a | e] s1]; cbn in *; [| done].
  etrans; [apply Hm | apply Hk].
Qed.

#[global] Hint Resolve appends_only_ret appends_only_raise appends_only_lift
  appends_only_get_schema appends_only_field_list_append
  appends_only_indices_append appends_only_get_event_datasets_append
  : appends.

Ltac appends_only_tac :=
  repeat first
    [ progress eauto with appends
    | apply appends_only_bind; [| intros ?]
    | match goal with
      | |- appends_only (match ?x with _ => _ end) => destruct x
      | |- appends_only (let '(_, _) := ?x in _) => destruct x
      end ].

Lemma appends_only_enterQualifiedName c : appends_only (enterQualifiedName c).
Proof. unfold enterQualifiedName. appends_only_tac. Qed.

Lemma appends_only_enterSourceIdentifier c :
  appends_only (enterSourceIdentifier c).
Proof. unfold enterSourceIdentifier. appends_only_tac. Qed.

Lemma appends_only_check_literal_type c : appends_only (check_literal_type c).
Proof. intros s. by rewrite check_literal_type_state. Qed.

Lemma appends_only_enterRule c : appends_only (enterRule c).
Proof.
  unfold enterRule.
  destruct (class_of (node c)) as [[] |];
    auto using appends_only_enterQualifiedName,
      appends_only_enterSourceIdentifier, appends_only_check_literal_type,
      appends_only_ret.
Qed.

Lemma appends_only_for_each {A} (f : A → M unit) l :
  Forall (λ a, appends_only (f a)) l → appends_only (for_each f l).
Proof.
  induction 1 as [| a l Ha _ IH]; cbn.
  - apply appends_only_ret.
  - apply appends_only_bind; [done | by intros _].
Qed.

Lemma walk_Rule ps cls cs :
  walk ps (Rule cls cs)
  = (enterRule (Ctx (Rule cls cs) ps)
     >> for_each (walk (Rule cls cs :: ps)) cs).
Proof. reflexivity. Qed.

Lemma appends_only_walk t : ∀ ps, appends_only (walk ps t).
Proof.
  induction t as [txt | cls cs IH] using tree_ind; intros ps.
  - apply appends_only_ret.
  - rewrite walk_Rule.
    apply appends_only_bind; [apply appends_only_enterRule |].
    intros _. apply appends_only_for_each.
    eapply Forall_impl; [exact IH |]. intros ch Hch. apply Hch.
Qed.

(** ** What a pass records about event.dataset *)

Lemma records_ret {A} (a : A) : records (ret a) [].
Proof. intros s. cbn. by rewrite app_nil_r. Qed.

Lemma records_bind {A B} (m : M A) (k : A → M B) l1 l2 :
  records m l1 → (∀ a, records (k a) l2) → records (bind m k) (l1 ++ l2).
Proof.
  intros Hm Hk s. specialize (Hm s). unfold bind.
  destruct (m s) as [[a | e] s1].
  - specialize (Hk a s1). destruct (k a s1) as [[b | e] s2].
    + by rewrite Hk, Hm, app_assoc.
    + destruct Hk as (l' & Hpre & Hk). exists (l1 ++ l'). split.
      * by apply prefix_app.
      * by rewrite Hk, Hm, app_assoc.
  - destruct Hm as (l' & Hpre & Hm). exists l'. split; [| done].
    by apply prefix_app_r.
Qed.

Lemma records_for_each {A} (f : A → M unit) (g : A → list string) l :
  Forall (λ a, records (f a) (g a)) l →
  records (for_each f l) (concat (map g l)).
Proof.
  induction 1 as [| a l Ha _ IH]; cbn.
  - apply records_ret.
  - apply records_bind; [done | by intros _].
Qed.

(** A handler that leaves the listener as it found it records nothing. *)
Lemma records_unchanged {A} (m : M A) l :
  (∀ s, get_event_datasets (m s).2 = get_event_datasets s) →
  l = [] → records m l.
Proof.
  intros Hm -> s. specialize (Hm s). destruct (m s) as [[a | e] s1]; cbn in *.
  - by rewrite app_nil_r.
  - exists []. by rewrite app_nil_r.
Qed.

Lemma records_enterQualifiedName c :
  class_of (node c) = Some QualifiedNameContext →
  records (enterQualifiedName c) (dataset_entry c).
Proof.
  intros Hcls s. unfold dataset_entry. rewrite Hcls.
  destruct c as [t [| p ps]]; cbn [ancestors node].
  - unfold enterQualifiedName, bind, field_list_append, get_schema. cbn.
    destruct (schema s !! getText t).
    + case_bool_decide; cbn; [exists [] | ]; by rewrite app_nil_r.
    + exists []. by rewrite app_nil_r.
  - unfold enterQualifiedName. rewrite parent_isinstance_cons.
    destruct (isinstance p EvalCommandContext); cbn.
    { by rewrite app_nil_r. }
    unfold bind, field_list_append, get_schema. cbn.
    destruct (schema s !! getText t).
    + case_bool_decide; cbn; [done | by rewrite app_nil_r].
    + exists []. split; [apply prefix_nil | by rewrite app_nil_r].
Qed.

Lemma records_enterSourceIdentifier c :
  records (enterSourceIdentifier c) [].
Proof.
  apply records_unchanged; [| done]. intros s.
  destruct (parent_isinstance c FromCommandContext) eqn:Hpar.
  - by rewrite enterSourceIdentifier_from.
  - by rewrite enterSourceIdentifier_field.
Qed.

Lemma records_check_literal_type c : records (check_literal_type c) [].
Proof.
  apply records_unchanged; [| done]. intros s.
  by rewrite check_literal_type_state.
Qed.

Lemma records_enterRule c : records (enterRule c) (dataset_entry c).
Proof.
  unfold enterRule.
  destruct (class_of (node c)) as [cls |] eqn:Hcls.
  - destruct cls;
      first [ by apply records_enterQualifiedName
            | unfold dataset_entry; rewrite Hcls;
              first [ apply records_enterSourceIdentifier
                    | apply records_check_literal_type
                    | apply records_ret ] ].
  - unfold dataset_entry. rewrite Hcls. apply records_ret.
Qed.

Lemma dataset_entries_Rule ps cls cs :
  dataset_entries ps (Rule cls cs)
  = dataset_entry (Ctx (Rule cls cs) ps)
    ++ concat (map (dataset_entries (Rule cls cs :: ps)) cs).
Proof.
  unfold dataset_entries. cbn [contexts map concat]. f_equal.
  generalize (Rule cls cs :: ps). intros ps'.
  induction cs as [| ch cs IH]; [done |].
  cbn [map concat]. by rewrite map_app, concat_app, IH.
Qed.

Lemma records_walk t : ∀ ps, records (walk ps t) (dataset_entries ps t).
Proof.
  induction t as [txt | cls cs IH] using tree_ind; intros ps.
  - apply records_ret.
  - rewrite walk_Rule, dataset_entries_Rule.
    apply records_bind; [apply records_enterRule |].
    intros _. apply records_for_each.
    eapply Forall_impl; [exact IH |]. intros ch Hch. apply Hch.
Qed.

(** ** The example contexts are contexts of the example queries *)

Section Examples.
Import Queries.

Lemma example_contexts :
  contexts [] dataset_query !! 18 = Some nginx_ctx
  ∧ contexts [] dataset_query !! 5 = Some logs_ctx
  ∧ contexts [] count_query !! 17 = Some five_ctx
  ∧ contexts [] null_query !! 18 = Some null_ctx
  ∧ contexts [] missing_query !! 12 = Some missing_ctx
  ∧ contexts [] missing_query !! 17 = Some one_ctx
  ∧ contexts [] eval_query !! 10 = Some b_ctx
  ∧ contexts [] drop_query !! 8 = Some dropped_ctx
  ∧ contexts [] direct_eval !! 1 = Some direct_ctx.
Proof. repeat split; reflexivity. Qed.

(** The queries of the specification's scenarios, run through the walk. *)
Example scenario_dataset :
  validate dataset_schema dataset_query
  = (Returned tt,
     Listener dataset_schema ["event.dataset"] ["logs-*"] ["event.dataset"]).
Proof. reflexivity. Qed.

Example scenario_count :
  validate count_schema count_query
  = (Raised (ValueError
       "Field 'count' in context 'Comparison'expects type 'integer', but got 'keyword'"),
     Listener count_schema ["count"] ["logs-*"] []).
Proof. reflexivity. Qed.

Example scenario_missing :
  validate ∅ missing_query
  = (Raised (ESQLSyntaxError "Invalid field: missing_field"),
     Listener ∅ ["missing_field"] ["logs-*"] []).
Proof. reflexivity. Qed.

Example scenario_eval :
  validate eval_schema eval_query
  = (Raised (ESQLSyntaxError "Invalid field: b"),
     Listener eval_schema ["b"] ["idx"] []).
Proof. reflexivity. Qed.

End Examples.

(** ** The statements *)

(** C1.  A literal whose nearest enclosing comparison or in-list context has
    the field operand [f] (a field in the sense of the source's truth test:
    its text is not empty), with [f] a key of the schema of declared type
    [T] and the literal's class mapped to the type [U]: the check returns
    iff [T = U], and otherwise raises the type error whose message names the
    field, the context, the expected and the actual type. *)
Theorem literal_check_by_declared_type c s f ck T cls U :
  find_associated_field_and_context c = Returned (Some f, ck) →
  f ≠ "" →
  schema s !! f = Some T →
  class_of (node c) = Some cls →
  (cls, U) ∈ literal_types →
  (check_literal_type c s = (Returned tt, s) ↔ T = U)
  ∧ (T ≠ U →
     check_literal_type c s
     = (Raised (ValueError (mismatch_message f ck T (Some U))), s)).
Proof.
  intros Hfind Hf Hsch Hcls HU.
  pose proof (search_ancestors_context _ _ _ Hfind) as Hck.
  rewrite (check_literal_type_unfold _ _ _ _ Hfind). cbn [truthy].
  rewrite bool_decide_eq_false_2 by done. cbn [negb]. rewrite Hsch.
  rewrite (get_literal_type_typed _ _ _ _ Hck Hcls HU).
  case_bool_decide as HTU.
  - split; [| done]. split; [done |]. intros ->. by destruct HTU.
  - assert (T = U) as ->.
    { by injection HTU. }
    split; [done |]. by intros [].
Qed.

Lemma literal_check_by_declared_type_witness :
  check_literal_type Queries.five_ctx (init Queries.count_schema)
  = (Raised (ValueError
       "Field 'count' in context 'Comparison'expects type 'integer', but got 'keyword'"),
     init Queries.count_schema).
Proof.
  apply (literal_check_by_declared_type Queries.five_ctx
           (init Queries.count_schema) "count" (Some "Comparison")
           "integer" StringLiteralContext "keyword").
  - reflexivity.
  - discriminate.
  - reflexivity.
  - reflexivity.
  - apply list_elem_of_here.
  - discriminate.
Defined.

(** C2, as the code has it.  A literal of a class with no inferred type
    (null and the three array literals), in a comparison or in-list context
    whose non-empty field operand is a key of the schema: the inferred type
    is [None], the comparison with the declared type is still made, and the
    check raises the type error, with None for the actual type. *)
Theorem untyped_literal_check_raises c s f ck T cls :
  find_associated_field_and_context c = Returned (Some f, ck) →
  f ≠ "" →
  schema s !! f = Some T →
  class_of (node c) = Some cls →
  cls ∈ untyped_literals →
  check_literal_type c s
  = (Raised (ValueError (mismatch_message f ck T None)), s).
Proof.
  intros Hfind Hf Hsch Hcls Hin.
  pose proof (search_ancestors_context _ _ _ Hfind) as Hck.
  rewrite (check_literal_type_unfold _ _ _ _ Hfind). cbn [truthy].
  rewrite bool_decide_eq_false_2 by done. cbn [negb]. rewrite Hsch.
  rewrite (get_literal_type_untyped _ _ _ Hck Hcls Hin).
  by rewrite bool_decide_eq_true_2.
Qed.

Lemma untyped_literal_check_raises_witness :
  check_literal_type Queries.null_ctx (init Queries.host_schema)
  = (Raised (ValueError
       "Field 'host.name' in context 'Comparison'expects type 'keyword', but got 'None'"),
     init Queries.host_schema).
Proof.
  apply (untyped_literal_check_raises Queries.null_ctx
           (init Queries.host_schema) "host.name" (Some "Comparison")
           "keyword" NullLiteralContext).
  - reflexivity.
  - discriminate.
  - reflexivity.
  - reflexivity.
  - apply list_elem_of_here.
Defined.

(** C2 fails as stated: in [from logs-* | where host.name == null] on the
    schema host.name : keyword, the null literal sits in a comparison whose
    field operand is a key of the schema, and its check raises. *)
Lemma null_literal_check_raises :
  contexts [] Queries.null_query !! 18 = Some Queries.null_ctx
  ∧ class_of (node Queries.null_ctx) = Some NullLiteralContext
  ∧ find_associated_field_and_context Queries.null_ctx
    = Returned (Some "host.name", Some "Comparison")
  ∧ Queries.host_schema !! "host.name" = Some "keyword"
  ∧ check_literal_type Queries.null_ctx (init Queries.host_schema)
    = (Raised (ValueError
         "Field 'host.name' in context 'Comparison'expects type 'keyword', but got 'None'"),
       init Queries.host_schema)
  ∧ (validate Queries.host_schema Queries.null_query).1
    = Raised (ValueError
        "Field 'host.name' in context 'Comparison'expects type 'keyword', but got 'None'").
Proof. repeat split; reflexivity. Qed.

(** C3, as the code has it.  A qualified name whose immediate parent is an
    eval command is neither added to [field_list] nor looked up in the
    schema: the handler returns and leaves the listener as it was. *)
Theorem eval_child_name_is_skipped c s :
  parent_isinstance c EvalCommandContext = true →
  enterQualifiedName c s = (Returned tt, s).
Proof. intros Hpar. unfold enterQualifiedName. by rewrite Hpar. Qed.

Lemma eval_child_name_is_skipped_witness :
  enterQualifiedName Queries.direct_ctx (init ∅) = (Returned tt, init ∅).
Proof.
  apply (eval_child_name_is_skipped Queries.direct_ctx (init ∅)).
  reflexivity.
Defined.

(** C3 fails as stated: in [from idx | eval b = a + 1] the name b lies
    inside the eval command, two levels down; the handler adds it to
    [field_list] and, b being no key of the schema, raises. *)
Lemma nested_eval_name_is_checked :
  contexts [] Queries.eval_query !! 10 = Some Queries.b_ctx
  ∧ class_of (node Queries.b_ctx) = Some QualifiedNameContext
  ∧ existsb (λ a, isinstance a EvalCommandContext)
      (ancestors Queries.b_ctx) = true
  ∧ enterQualifiedName Queries.b_ctx (init Queries.eval_schema)
    = (Raised (ESQLSyntaxError "Invalid field: b"),
       Listener Queries.eval_schema ["b"] [] []).
Proof. repeat split; reflexivity. Qed.

(** C4.  A source identifier whose immediate parent is a from command: its
    text is added to [indices], nothing is looked up in the schema and the
    handler returns, whatever the schema holds. *)
Theorem from_source_is_index c s :
  parent_isinstance c FromCommandContext = true →
  enterSourceIdentifier c s = (Returned tt, add_index (getText (node c)) s)
  ∧ indices (enterSourceIdentifier c s).2 = indices s ++ [getText (node c)]
  ∧ field_list (enterSourceIdentifier c s).2 = field_list s.
Proof.
  intros Hpar. by rewrite (enterSourceIdentifier_from _ _ Hpar).
Qed.

Lemma from_source_is_index_witness :
  Queries.dataset_schema !! "logs-*" = None
  ∧ enterSourceIdentifier Queries.logs_ctx (init Queries.dataset_schema)
    = (Returned tt, Listener Queries.dataset_schema [] ["logs-*"] []).
Proof.
  split; [reflexivity |].
  apply (from_source_is_index Queries.logs_ctx (init Queries.dataset_schema)).
  reflexivity.
Defined.

(** C5, at the failing input.  In
    [from logs-* | where event.dataset == "nginx"] on the schema
    event.dataset : keyword, the comparison is a node of the tree and its
    field operand reads event.dataset; the pass returns, and the only entry
    it has recorded is the text of the name's parent, the name itself: the
    text of the comparison is not in [get_event_datasets]. *)
Lemma comparison_text_not_recorded :
  (node <$> contexts [] Queries.dataset_query) !! 9
  = Some Queries.dataset_cmp
  ∧ isinstance Queries.dataset_cmp ComparisonContext = true
  ∧ search_ancestors [Queries.dataset_cmp]
    = Returned (Some "event.dataset", Some "Comparison")
  ∧ getText Queries.dataset_cmp
    = "event.dataset==" +:+ Queries.quoted "nginx"
  ∧ validate Queries.dataset_schema Queries.dataset_query
    = (Returned tt,
       Listener Queries.dataset_schema
         ["event.dataset"] ["logs-*"] ["event.dataset"])
  ∧ getText Queries.dataset_cmp
    ∉ get_event_datasets
        (validate Queries.dataset_schema Queries.dataset_query).2.
Proof.
  repeat split; try reflexivity.
  intros Hin. vm_compute in Hin. apply list_elem_of_In in Hin.
  destruct Hin as [Heq | []]. discriminate Heq.
Qed.




(** C7.  When the search yields no field, or a field that is no key of the
    schema, the check returns without raising and leaves the listener as it
    was. *)
Theorem unconstrained_literal_passes c s fld ck :
  find_associated_field_and_context c = Returned (fld, ck) →
  fld = None ∨ (∃ f, fld = Some f ∧ schema s !! f = None) →
  check_literal_type c s = (Returned tt, s).
Proof.
  intros Hfind Hfld. rewrite (check_literal_type_unfold _ _ _ _ Hfind).
  destruct Hfld as [-> | (f & -> & Hsch)]; [done |].
  rewrite Hsch. by destruct (truthy (Some f)).
Qed.

Lemma unconstrained_literal_passes_witness :
  check_literal_type Queries.one_ctx (init ∅) = (Returned tt, init ∅).
Proof.
  apply (unconstrained_literal_passes Queries.one_ctx (init ∅)
           (Some "missing_field") (Some "Comparison")).
  - reflexivity.
  - right. exists "missing_field". split; reflexivity.
Defined.

(** C8.  A source identifier whose immediate parent is no from command: its
    text is added to [field_list]; the handler raises the unknown-field
    error exactly when the text is no key of the schema; [indices] and
    [get_event_datasets] stay as they were, whatever the text is. *)
Theorem other_source_is_field c s :
  parent_isinstance c FromCommandContext = false →
  (enterSourceIdentifier c s).2 = add_field (getText (node c)) s
  ∧ field_list (enterSourceIdentifier c s).2
    = field_list s ++ [getText (node c)]
  ∧ get_event_datasets (enterSourceIdentifier c s).2 = get_event_datasets s
  ∧ indices (enterSourceIdentifier c s).2 = indices s
  ∧ (schema s !! getText (node c) = None →
     (enterSourceIdentifier c s).1
     = Raised (ValueError ("Invalid field: " +:+ getText (node c))))
  ∧ (is_Some (schema s !! getText (node c)) →
     (enterSourceIdentifier c s).1 = Returned tt).
Proof.
  intros Hpar. rewrite (enterSourceIdentifier_field _ _ Hpar). cbn.
  repeat split.
  - by intros ->.
  - by intros [T ->].
Qed.

Lemma other_source_is_field_witness :
  enterSourceIdentifier Queries.dropped_ctx (init Queries.dataset_schema)
  = (Returned tt, Listener Queries.dataset_schema ["event.dataset"] [] []).
Proof.
  pose proof (other_source_is_field Queries.dropped_ctx
                (init Queries.dataset_schema) eq_refl)
    as (Hstate & _ & _ & _ & _ & Hret).
  rewrite (surjective_pairing (enterSourceIdentifier _ _)).
  rewrite Hstate, Hret; [reflexivity |]. by exists "keyword".
Defined.

(** C9.  Every handler, and so a whole pass, whether it returns or raises,
    leaves each of [field_list], [indices] and [get_event_datasets] with its
    former content as a prefix, and the schema untouched: entries are only
    added at the end, none removed, changed or moved. *)
Theorem collections_append_only :
  (∀ c s, extends s (enterRule c s).2)
  ∧ (∀ ps t s, extends s (walk ps t s).2).
Proof.
  split.
  - intros c. apply appends_only_enterRule.
  - intros ps t. apply appends_only_walk.
Qed.

(** C10.  A qualified name whose immediate parent is no eval command and
    whose text is no key of the schema: the handler raises the unknown-field
    error with the text already added to [field_list], in the listener the
    error leaves behind. *)
Theorem unknown_field_raised_after_append c s :
  parent_isinstance c EvalCommandContext = false →
  schema s !! getText (node c) = None →
  enterQualifiedName c s
  = (Raised (ESQLSyntaxError ("Invalid field: " +:+ getText (node c))),
     add_field (getText (node c)) s)
  ∧ field_list (enterQualifiedName c s).2
    = field_list s ++ [getText (node c)].
Proof.
  intros Hpar Hsch. by rewrite (enterQualifiedName_unknown _ _ Hpar Hsch).
Qed.

Lemma unknown_field_raised_after_append_witness :
  enterQualifiedName Queries.missing_ctx (init ∅)
  = (Raised (ESQLSyntaxError "Invalid field: missing_field"),
     Listener ∅ ["missing_field"] [] [])
  ∧ field_list (enterQualifiedName Queries.missing_ctx (init ∅)).2
    = ["missing_field"].
Proof.
  apply (unknown_field_raised_after_append Queries.missing_ctx (init ∅));
    reflexivity.
Defined.

(** ** The walk as a run of the handlers over the contexts *)

Lemma bind_eq {A B} (m : M A) (k : A → M B) s :
  bind m k s
  = match m s with
    | (Returned a, s1) => k a s1
    | (Raised e, s1) => (Raised e, s1)
    end.
Proof. reflexivity. Qed.

Lemma bind_assoc {A B C} (m : M A) (k : A → M B) (h : B → M C) s :
  bind (bind m k) h s = bind m (λ a, bind (k a) h) s.
Proof. unfold bind. by destruct (m s) as [[a | e] s1]. Qed.

Lemma for_each_app {A} (f : A → M unit) l1 l2 s :
  for_each f (l1 ++ l2) s = (for_each f l1 >> for_each f l2) s.
Proof.
  revert s. induction l1 as [| a l1 IH]; intros s; [reflexivity |].
  cbn [app for_each]. rewrite bind_assoc, !(bind_eq (f a)).
  destruct (f a s) as [[[] | e] s1]; [| reflexivity].
  apply IH.
Qed.

Lemma for_each_ext {A} (f g : A → M unit) l :
  Forall (λ a, ∀ s, f a s = g a s) l →
  ∀ s, for_each f l s = for_each g l s.
Proof.
  induction 1 as [| a l Ha _ IH]; intros s; [done |].
  cbn [for_each]. rewrite !bind_eq, Ha.
  destruct (g a s) as [[[] | e] s1]; [| done].
  apply IH.
Qed.

Lemma for_each_concat {A B} (f : B → M unit) (g : A → list B) l s :
  for_each f (concat (map g l)) s = for_each (λ a, for_each f (g a)) l s.
Proof.
  revert s. induction l as [| a l IH]; intros s; [done |].
  cbn [map concat for_each]. rewrite for_each_app, !bind_eq.
  destruct (for_each f (g a) s) as [[[] | e] s1]; [| done]. apply IH.
Qed.

Lemma walk_for_each t :
  ∀ ps s, walk ps t s = for_each enterRule (contexts ps t) s.
Proof.
  induction t as [txt | cls cs IH] using tree_ind; intros ps s; [done |].
  rewrite walk_Rule. cbn [contexts for_each]. rewrite !bind_eq.
  destruct (enterRule _ s) as [[[] | e] s1]; [| done].
  rewrite for_each_concat. apply for_each_ext.
  eapply Forall_impl; [exact IH |]. intros ch Hch. apply Hch.
Qed.

(** A run that returns has run the handler of every element, each from a
    listener that extends the first one. *)
Lemma for_each_returned {A} (f : A → M unit) l s s' a :
  (∀ a, appends_only (f a)) →
  for_each f l s = (Returned tt, s') →
  a ∈ l →
  ∃ s1 s2, extends s s1 ∧ f a s1 = (Returned tt, s2) ∧ extends s2 s'.
Proof.
  intros Hf. revert s. induction l as [| b l IH]; intros s Hrun Hin.
  { by apply elem_of_nil in Hin. }
  cbn [for_each] in Hrun. rewrite bind_eq in Hrun.
  destruct (f b s) as [[[] | e] s1] eqn:Hb; [| done].
  apply elem_of_cons in Hin as [-> | Hin].
  - exists s, s1. split; [done |]. split; [done |].
    pose proof (appends_only_for_each f l) as Hl.
    specialize (Hl ltac:(by apply Forall_forall) s1). by rewrite Hrun in Hl.
  - destruct (IH _ Hrun Hin) as (s2 & s3 & Hext & Ha & Hext').
    exists s2, s3. split; [| done]. etrans; [| exact Hext].
    specialize (Hf b s). by rewrite Hb in Hf.
Qed.

(** A run that raises stopped at the first element whose handler raised. *)
Lemma for_each_raised {A} (f : A → M unit) l s s' e :
  for_each f l s = (Raised e, s') →
  ∃ l1 a l2 s1,
    l = l1 ++ a :: l2
    ∧ for_each f l1 s = (Returned tt, s1)
    ∧ f a s1 = (Raised e, s').
Proof.
  revert s. induction l as [| b l IH]; intros s Hrun; [done |].
  cbn [for_each] in Hrun. rewrite bind_eq in Hrun.
  destruct (f b s) as [[[] | e1] s1] eqn:Hb.
  - destruct (IH _ Hrun) as (l1 & a & l2 & s2 & -> & Hl1 & Ha).
    exists (b :: l1), a, l2, s2. split; [done |]. split; [| done].
    cbn [app for_each]. by rewrite bind_eq, Hb.
  - injection Hrun as <- <-. by exists [], b, l, s.
Qed.

Lemma for_each_invariant {A} (f : A → M unit) (P : listener → Prop) l s s' :
  (∀ a s1 s2, a ∈ l → P s1 → f a s1 = (Returned tt, s2) → P s2) →
  P s →
  for_each f l s = (Returned tt, s') →
  P s'.
Proof.
  revert s. induction l as [| b l IH]; intros s Hstep HP Hrun.
  { by injection Hrun as <-. }
  cbn [for_each] in Hrun. rewrite bind_eq in Hrun.
  destruct (f b s) as [[[] | e] s1] eqn:Hb; [| done].
  apply (IH s1); [| | done].
  - intros a s2 s3 Hin. apply Hstep. by apply list_elem_of_further.
  - eapply Hstep; [apply list_elem_of_here | done | done].
Qed.

(** ** What a pass adds to [field_list] and to [indices] *)

Lemma adds_ret {A} proj (a : A) : adds proj (ret a) [].
Proof. intros s. cbn. by rewrite app_nil_r. Qed.

Lemma adds_bind {A B} proj (m : M A) (k : A → M B) l1 l2 :
  adds proj m l1 → (∀ a, adds proj (k a) l2) → adds proj (bind m k) (l1 ++ l2).
Proof.
  intros Hm Hk s. specialize (Hm s). rewrite bind_eq.
  destruct (m s) as [[a | e] s1].
  - specialize (Hk a s1). destruct (k a s1) as [[b | e] s2].
    + by rewrite Hk, Hm, app_assoc.
    + destruct Hk as (l' & Hpre & Hk). exists (l1 ++ l'). split.
      * by apply prefix_app.
      * by rewrite Hk, Hm, app_assoc.
  - destruct Hm as (l' & Hpre & Hm). exists l'. split; [| done].
    by apply prefix_app_r.
Qed.

Lemma adds_for_each {A} proj (f : A → M unit) (g : A → list string) l :
  Forall (λ a, adds proj (f a) (g a)) l →
  adds proj (for_each f l) (concat (map g l)).
Proof.
  induction 1 as [| a l Ha _ IH]; cbn [map concat for_each].
  - apply adds_ret.
  - apply adds_bind; [done | by intros _].
Qed.

(** A handler that adds [l] whether it returns or raises. *)
Lemma adds_always {A} proj (m : M A) l :
  (∀ s, proj (m s).2 = proj s ++ l) → adds proj m l.
Proof.
  intros Hm s. specialize (Hm s). destruct (m s) as [[a | e] s1]; cbn in *.
  - done.
  - by exists l.
Qed.

Lemma enterQualifiedName_field_list c s :
  parent_isinstance c EvalCommandContext = false →
  field_list (enterQualifiedName c s).2 = field_list s ++ [getText (node c)]
  ∧ indices (enterQualifiedName c s).2 = indices s.
Proof.
  intros Hpar. unfold enterQualifiedName. rewrite Hpar. cbn [negb].
  rewrite !bind_eq. cbn. destruct (schema s !! getText (node c)); [| done].
  case_bool_decide; [| done]. by destruct (parentCtx c).
Qed.

Lemma adds_field_list_enterRule c :
  adds field_list (enterRule c) (field_entry c).
Proof.
  apply adds_always. intros s. unfold enterRule, field_entry.
  unfold enterNullLiteral, enterQualifiedIntegerLiteral, enterDecimalLiteral,
    enterIntegerLiteral, enterBooleanLiteral, enterStringLiteral,
    enterNumericArrayLiteral, enterBooleanArrayLiteral,
    enterStringArrayLiteral.
  destruct (class_of (node c)) as [[] |]; cbn [ret snd];
    rewrite ?check_literal_type_state, ?app_nil_r; try done.
  - destruct (parent_isinstance c EvalCommandContext) eqn:Hpar.
    + unfold enterQualifiedName. rewrite Hpar. cbn. by rewrite app_nil_r.
    + by apply enterQualifiedName_field_list.
  - destruct (parent_isinstance c FromCommandContext) eqn:Hpar.
    + rewrite enterSourceIdentifier_from by done. cbn. by rewrite app_nil_r.
    + by rewrite enterSourceIdentifier_field.
Qed.

Lemma adds_indices_enterRule c :
  adds indices (enterRule c) (index_entry c).
Proof.
  apply adds_always. intros s. unfold enterRule, index_entry.
  unfold enterNullLiteral, enterQualifiedIntegerLiteral, enterDecimalLiteral,
    enterIntegerLiteral, enterBooleanLiteral, enterStringLiteral,
    enterNumericArrayLiteral, enterBooleanArrayLiteral,
    enterStringArrayLiteral.
  destruct (class_of (node c)) as [[] |]; cbn [ret snd];
    rewrite ?check_literal_type_state, ?app_nil_r; try done.
  - destruct (parent_isinstance c EvalCommandContext) eqn:Hpar.
    + unfold enterQualifiedName. by rewrite Hpar.
    + by apply enterQualifiedName_field_list.
  - destruct (parent_isinstance c FromCommandContext) eqn:Hpar.
    + by rewrite enterSourceIdentifier_from.
    + rewrite enterSourceIdentifier_field by done. cbn. by rewrite app_nil_r.
Qed.

Lemma adds_walk proj (entry : ctx → list string) ps t :
  (∀ c, adds proj (enterRule c) (entry c)) →
  adds proj (walk ps t) (concat (map entry (contexts ps t))).
Proof.
  intros Hentry s. rewrite walk_for_each.
  apply adds_for_each. by apply Forall_forall.
Qed.

Lemma adds_outcome {A} proj (m : M A) l s o s' :
  adds proj m l →
  m s = (o, s') →
  ∃ l', proj s' = proj s ++ l'
        ∧ l' `prefix_of` l
        ∧ (∀ a, o = Returned a → l' = l).
Proof.
  intros Hm Hrun. specialize (Hm s). rewrite Hrun in Hm.
  destruct o as [a | e].
  - exists l. by repeat split.
  - destruct Hm as (l' & Hpre & Hm). exists l'. by repeat split.
Qed.

(** X1.  What a pass adds to [field_list] is, in the order of the nodes,
    the text of every qualified name that is no child of an eval command
    and of every source identifier that is no child of a from command:
    exactly these when the pass returns, a prefix of them when it raises. *)
Theorem field_list_collected ps t s o s' :
  walk ps t s = (o, s') →
  ∃ l, field_list s' = field_list s ++ l
       ∧ l `prefix_of` concat (map field_entry (contexts ps t))
       ∧ (o = Returned tt → l = concat (map field_entry (contexts ps t))).
Proof.
  intros Hwalk.
  destruct (adds_outcome field_list _ _ _ _ _
              (adds_walk _ _ ps t adds_field_list_enterRule) Hwalk)
    as (l & Hl & Hpre & Hret).
  exists l. repeat split; [done | done |]. apply Hret.
Qed.

Lemma field_list_collected_witness :
  ∃ l, ["b"] = [] ++ l
       ∧ l `prefix_of`
           concat (map field_entry (contexts [] Queries.eval_query))
       ∧ (Raised (ESQLSyntaxError "Invalid field: b") = Returned tt →
          l = concat (map field_entry (contexts [] Queries.eval_query))).
Proof.
  apply (field_list_collected [] Queries.eval_query
           (init Queries.eval_schema)
           (Raised (ESQLSyntaxError "Invalid field: b"))
           (Listener Queries.eval_schema ["b"] ["idx"] [])).
  reflexivity.
Defined.

(** X2.  What a pass adds to [indices] is, in the order of the nodes, the
    text of every source identifier that is a child of a from command:
    exactly these when the pass returns, a prefix of them when it raises. *)
Theorem indices_collected ps t s o s' :
  walk ps t s = (o, s') →
  ∃ l, indices s' = indices s ++ l
       ∧ l `prefix_of` concat (map index_entry (contexts ps t))
       ∧ (o = Returned tt → l = concat (map index_entry (contexts ps t))).
Proof.
  intros Hwalk.
  destruct (adds_outcome indices _ _ _ _ _
              (adds_walk _ _ ps t adds_indices_enterRule) Hwalk)
    as (l & Hl & Hpre & Hret).
  exists l. repeat split; [done | done |]. apply Hret.
Qed.

Lemma indices_collected_witness :
  ∃ l, ["logs-*"] = [] ++ l
       ∧ l `prefix_of`
           concat (map index_entry (contexts [] Queries.dataset_query))
       ∧ (Returned tt = Returned tt →
          l = concat (map index_entry (contexts [] Queries.dataset_query))).
Proof.
  apply (indices_collected [] Queries.dataset_query
           (init Queries.dataset_schema) (Returned tt)
           (Listener Queries.dataset_schema
              ["event.dataset"] ["logs-*"] ["event.dataset"])).
  reflexivity.
Defined.

(** X12.  As the code stands, what a pass adds to [get_event_datasets] is,
    in the order of the nodes in the tree, the text of the immediate parent
    of each qualified name that reads event.dataset and whose parent is no
    eval command: exactly these entries when the pass returns, a prefix of
    them when it raises. *)
Theorem dataset_entries_recorded ps t s o s' :
  walk ps t s = (o, s') →
  ∃ l, get_event_datasets s' = get_event_datasets s ++ l
       ∧ l `prefix_of` dataset_entries ps t
       ∧ (o = Returned tt → l = dataset_entries ps t).
Proof.
  intros Hwalk. pose proof (records_walk t ps s) as Hrec.
  rewrite Hwalk in Hrec. destruct o as [[] | e].
  - exists (dataset_entries ps t). by repeat split.
  - destruct Hrec as (l & Hpre & Hrec). exists l. by repeat split.
Qed.

Lemma dataset_entries_recorded_witness :
  ∃ l, ["event.dataset"] = [] ++ l
       ∧ l `prefix_of` dataset_entries [] Queries.dataset_query
       ∧ (Returned tt = Returned tt →
          l = dataset_entries [] Queries.dataset_query).
Proof.
  apply (dataset_entries_recorded [] Queries.dataset_query
           (init Queries.dataset_schema) (Returned tt)
           (Listener Queries.dataset_schema
              ["event.dataset"] ["logs-*"] ["event.dataset"])).
  reflexivity.
Defined.

(** ** What a pass that returns has checked *)

Lemma enterRule_returned_known c s s2 :
  enterRule c s = (Returned tt, s2) →
  Forall (λ f, is_Some (schema s !! f)) (field_entry c).
Proof.
  unfold enterRule, field_entry.
  destruct (class_of (node c)) as [[] |]; try (intros _; by constructor).
  - destruct (parent_isinstance c EvalCommandContext) eqn:Hpar;
      [intros _; by constructor |].
    destruct (schema s !! getText (node c)) as [T |] eqn:Hsch.
    + intros _. repeat constructor. rewrite Hsch. by exists T.
    + by rewrite (enterQualifiedName_unknown _ _ Hpar Hsch).
  - destruct (parent_isinstance c FromCommandContext) eqn:Hpar;
      [intros _; by constructor |].
    rewrite (enterSourceIdentifier_field _ _ Hpar).
    destruct (schema s !! getText (node c)) as [T |] eqn:Hsch; [| done].
    intros _. repeat constructor. rewrite Hsch. by exists T.
Qed.

(** X3.  After a pass that returns, every name in [field_list] is a key of
    the schema, provided those it started with were. *)
Theorem returned_pass_fields_known ps t s s' :
  walk ps t s = (Returned tt, s') →
  Forall (λ f, is_Some (schema s !! f)) (field_list s) →
  Forall (λ f, is_Some (schema s' !! f)) (field_list s').
Proof.
  intros Hwalk Hs. rewrite walk_for_each in Hwalk.
  cut (schema s' = schema s
       ∧ Forall (λ f, is_Some (schema s !! f)) (field_list s')).
  { intros [-> H]. exact H. }
  revert Hwalk.
  apply (for_each_invariant enterRule
           (λ s1, schema s1 = schema s
                  ∧ Forall (λ f, is_Some (schema s !! f)) (field_list s1)));
    [| done].
  intros c s1 s2 _ [Hsch Hall] Hc. split.
  - pose proof (appends_only_enterRule c s1) as Hext. rewrite Hc in Hext.
    destruct Hext as [Hsch' _ _ _]. cbn in Hsch'. congruence.
  - pose proof (adds_field_list_enterRule c s1) as Hadd. rewrite Hc in Hadd.
    rewrite Hadd. apply Forall_app. split; [done |].
    rewrite <-Hsch. by eapply enterRule_returned_known.
Qed.

Lemma returned_pass_fields_known_witness :
  Forall (λ f, is_Some (Queries.dataset_schema !! f)) ["event.dataset"].
Proof.
  apply (returned_pass_fields_known [] Queries.dataset_query
           (init Queries.dataset_schema)
           (Listener Queries.dataset_schema
              ["event.dataset"] ["logs-*"] ["event.dataset"])).
  - reflexivity.
  - constructor.
Defined.

Lemma check_literal_type_returned c s s2 f ck T :
  find_associated_field_and_context c = Returned (Some f, ck) →
  f ≠ "" →
  schema s !! f = Some T →
  check_literal_type c s = (Returned tt, s2) →
  get_literal_type c ck = Some T.
Proof.
  intros Hfind Hf Hsch. rewrite (check_literal_type_unfold _ _ _ _ Hfind).
  cbn [truthy]. rewrite bool_decide_eq_false_2 by done. cbn [negb].
  rewrite Hsch. case_bool_decide as Heq; [done |]. intros _. congruence.
Qed.

Lemma enterRule_typed_literal c cls U :
  class_of (node c) = Some cls →
  (cls, U) ∈ literal_types →
  enterRule c = check_literal_type c.
Proof.
  intros Hcls Hin. unfold enterRule. rewrite Hcls.
  unfold literal_types in Hin. rewrite !elem_of_cons in Hin.
  destruct Hin as [[= -> ->] | [[= -> ->] | [[= -> ->] | [[= -> ->] |
                  [[= -> ->] | Hnil]]]]]; try done.
  by apply elem_of_nil in Hnil.
Qed.

(** X4.  After a pass that returns, every literal of the tree whose class
    has an inferred type and whose nearest context names a non-empty field
    that is a key of the schema has the type the schema declares for that
    field. *)
Theorem returned_pass_literals_typed ps t s s' c cls U f ck T :
  walk ps t s = (Returned tt, s') →
  c ∈ contexts ps t →
  class_of (node c) = Some cls →
  (cls, U) ∈ literal_types →
  find_associated_field_and_context c = Returned (Some f, ck) →
  f ≠ "" →
  schema s !! f = Some T →
  T = U.
Proof.
  intros Hwalk Hin Hcls HU Hfind Hf Hsch. rewrite walk_for_each in Hwalk.
  destruct (for_each_returned enterRule _ _ _ c appends_only_enterRule
              Hwalk Hin) as (s1 & s2 & [Hsch1 _ _ _] & Hc & _).
  rewrite (enterRule_typed_literal _ _ _ Hcls HU) in Hc.
  rewrite <-Hsch1 in Hsch.
  pose proof (check_literal_type_returned _ _ _ _ _ _ Hfind Hf Hsch Hc) as HT.
  pose proof (search_ancestors_context _ _ _ Hfind) as Hck.
  rewrite (get_literal_type_typed _ _ _ _ Hck Hcls HU) in HT. congruence.
Qed.

Lemma returned_pass_literals_typed_witness : "keyword" = "keyword".
Proof.
  apply (returned_pass_literals_typed [] Queries.dataset_query
           (init Queries.dataset_schema)
           (Listener Queries.dataset_schema
              ["event.dataset"] ["logs-*"] ["event.dataset"])
           Queries.nginx_ctx StringLiteralContext "keyword"
           "event.dataset" (Some "Comparison") "keyword").
  - reflexivity.
  - apply list_elem_of_lookup. exists 18. reflexivity.
  - reflexivity.
  - apply list_elem_of_here.
  - reflexivity.
  - discriminate.
  - reflexivity.
Defined.

(** ** What a pass that raises has met *)

Lemma search_ancestors_raised ps e :
  search_ancestors ps = Raised e → e = no_getChild ∨ e = no_len.
Proof.
  induction ps as [| p ps IH]; cbn; [done |].
  destruct (isinstance p ComparisonContext).
  { destruct (operatorExpression p 0) as [oe |]; [| intros [= <-]; by left].
    destruct (getChild oe 0) eqn:Hch; [done |]. intros [= <-].
    right. by eapply getChild_raised. }
  destruct (isinstance p LogicalInContext); [| done].
  destruct (valueExpression p 0) as [ve |]; [| intros [= <-]; by left].
  destruct (getChild ve 0) eqn:Hch; [done |]. intros [= <-].
  right. by eapply getChild_raised.
Qed.

Lemma get_literal_type_not_unknown c ck :
  ck = Some "Comparison" ∨ ck = Some "LogicalIn" →
  get_literal_type c ck ≠ Some "unknown".
Proof.
  unfold get_literal_type.
  intros [-> | ->]; cbn; by destruct (class_of (node c)) as [[] |].
Qed.

Lemma check_literal_type_raised c s e s2 :
  check_literal_type c s = (Raised e, s2) → handler_error s e.
Proof.
  destruct (find_associated_field_and_context c) as [[fld ck] | e1] eqn:Hfind.
  - rewrite (check_literal_type_unfold _ _ _ _ Hfind).
    destruct fld as [f |]; [| done]. cbn [truthy].
    case_bool_decide as Hf; cbn [negb]; [done |].
    destruct (schema s !! f) as [T |] eqn:Hsch; [| done].
    case_bool_decide as Hne; [| done]. intros [= <- _].
    pose proof (search_ancestors_context _ _ _ Hfind) as Hck.
    pose proof (get_literal_type_not_unknown c _ Hck) as Hunk.
    assert (get_literal_type c ck ≠ Some T) as Hact.
    { intros H. apply Hne. by rewrite H. }
    destruct Hck as [-> | ->]; apply type_mismatch; auto.
  - rewrite (check_literal_type_propagates _ _ _ Hfind). intros [= <- _].
    destruct (search_ancestors_raised _ _ Hfind) as [-> | ->]; constructor.
Qed.

Lemma enterRule_raised c s e s2 :
  enterRule c s = (Raised e, s2) → handler_error s e.
Proof.
  unfold enterRule, enterNullLiteral, enterQualifiedIntegerLiteral,
    enterDecimalLiteral, enterIntegerLiteral, enterBooleanLiteral,
    enterStringLiteral, enterNumericArrayLiteral, enterBooleanArrayLiteral,
    enterStringArrayLiteral.
  destruct (class_of (node c)) as [[] |];
    try apply check_literal_type_raised; try done.
  - unfold enterQualifiedName.
    destruct (parent_isinstance c EvalCommandContext); [done |].
    cbn [negb]. rewrite !bind_eq. cbn.
    destruct (schema s !! getText (node c)) eqn:Hsch.
    + case_bool_decide; [| done].
      destruct (parentCtx c); [done |]. intros [= <- _]. constructor.
    + intros [= <- _]. by constructor.
  - destruct (parent_isinstance c FromCommandContext) eqn:Hpar.
    + by rewrite enterSourceIdentifier_from.
    + rewrite (enterSourceIdentifier_field _ _ Hpar).
      destruct (schema s !! getText (node c)) eqn:Hsch; [done |].
      intros [= <- _]. by constructor.
Qed.

Lemma handler_error_schema s1 s2 e :
  schema s1 = schema s2 → handler_error s1 e → handler_error s2 e.
Proof.
  intros Hsch [f Hf | f Hf | f ck T actual Hf Hck HT Ha Hu | | |].
  - apply unknown_name. by rewrite <-Hsch.
  - apply unknown_source. by rewrite <-Hsch.
  - apply type_mismatch; try done. by rewrite <-Hsch.
  - constructor.
  - constructor.
  - constructor.
Qed.

(** X5.  A pass that raises does so in the handler of one of the contexts
    of the tree, run on a listener that extends the one the pass started
    with, and leaves the listener as that handler left it; the error is an
    unknown field, a type mismatch against the schema, or a method or
    [len] called on [None]. *)
Theorem raised_pass_first_failure ps t s e s' :
  walk ps t s = (Raised e, s') →
  ∃ c s1,
    c ∈ contexts ps t
    ∧ extends s s1
    ∧ enterRule c s1 = (Raised e, s')
    ∧ handler_error s e.
Proof.
  intros Hwalk. rewrite walk_for_each in Hwalk.
  destruct (for_each_raised _ _ _ _ _ Hwalk)
    as (l1 & c & l2 & s1 & Hl & Hl1 & Hc).
  assert (extends s s1) as Hext.
  { pose proof (appends_only_for_each enterRule l1) as H.
    specialize (H ltac:(apply Forall_forall; intros; apply appends_only_enterRule) s).
    by rewrite Hl1 in H. }
  exists c, s1. split; [| split; [done | split; [done |]]].
  - rewrite Hl. apply elem_of_app. right. apply list_elem_of_here.
  - apply (handler_error_schema s1); [by destruct Hext |].
    by eapply enterRule_raised.
Qed.

Lemma raised_pass_first_failure_witness :
  ∃ c s1,
    c ∈ contexts [] Queries.count_query
    ∧ extends (init Queries.count_schema) s1
    ∧ enterRule c s1
      = (Raised (ValueError
           "Field 'count' in context 'Comparison'expects type 'integer', but got 'keyword'"),
         Listener Queries.count_schema ["count"] ["logs-*"] [])
    ∧ handler_error (init Queries.count_schema)
        (ValueError
           "Field 'count' in context 'Comparison'expects type 'integer', but got 'keyword'").
Proof.
  apply (raised_pass_first_failure [] Queries.count_query
           (init Queries.count_schema)).
  reflexivity.
Defined.

(** ** Edges of the handlers *)

(** X6.  When the nearest comparison or in-list ancestor of a literal has
    no operand of the expected kind, the search calls [getChild] on [None]:
    the check raises the attribute error and leaves the listener as it
    was. *)
Theorem context_without_operand_raises c s pre p rest :
  ancestors c = pre ++ p :: rest →
  Forall (λ a, recognized a = false) pre →
  (isinstance p ComparisonContext = true ∧ operatorExpression p 0 = None)
  ∨ (isinstance p LogicalInContext = true ∧ valueExpression p 0 = None) →
  check_literal_type c s = (Raised no_getChild, s).
Proof.
  intros Hanc Hpre Hp. apply check_literal_type_propagates.
  unfold find_associated_field_and_context.
  rewrite Hanc, search_ancestors_skip by done. cbn.
  destruct Hp as [[Hc Hoe] | [Hl Hve]].
  - by rewrite Hc, Hoe.
  - rewrite Hl, Hve. destruct (isinstance p ComparisonContext) eqn:Hc; [| done].
    unfold isinstance in *. apply bool_decide_eq_true in Hc, Hl. congruence.
Qed.

Lemma context_without_operand_raises_witness :
  check_literal_type Edges.bare_ctx (init ∅) = (Raised no_getChild, init ∅).
Proof.
  apply (context_without_operand_raises Edges.bare_ctx (init ∅)
           [] Edges.bare_cmp []).
  - reflexivity.
  - constructor.
  - left. split; reflexivity.
Defined.

(** X13.  When the first operand of the nearest comparison or in-list
    ancestor of a literal has no children, [getChild] takes the length of
    [None]: the check raises the type error and leaves the listener as it
    was. *)
Theorem childless_operand_raises c s pre p rest cls :
  ancestors c = pre ++ p :: rest →
  Forall (λ a, recognized a = false) pre →
  (isinstance p ComparisonContext = true
   ∧ operatorExpression p 0 = Some (Rule cls []))
  ∨ (isinstance p LogicalInContext = true
     ∧ valueExpression p 0 = Some (Rule cls [])) →
  check_literal_type c s = (Raised no_len, s).
Proof.
  intros Hanc Hpre Hp. apply check_literal_type_propagates.
  unfold find_associated_field_and_context.
  rewrite Hanc, search_ancestors_skip by done. cbn.
  destruct Hp as [[Hc Hoe] | [Hl Hve]].
  - by rewrite Hc, Hoe.
  - rewrite Hl, Hve. destruct (isinstance p ComparisonContext) eqn:Hc; [| done].
    unfold isinstance in *. apply bool_decide_eq_true in Hc, Hl. congruence.
Qed.

Lemma childless_operand_raises_witness :
  check_literal_type Edges.hollow_ctx (init Queries.host_schema)
  = (Raised no_len, init Queries.host_schema).
Proof.
  apply (childless_operand_raises Edges.hollow_ctx
           (init Queries.host_schema)
           [Queries.other "constantDefault" [Queries.null_lit];
            Queries.constant Queries.null_lit]
           Edges.hollow_cmp []
           (OperatorExpressionContext "operatorExpressionDefault")).
  - reflexivity.
  - repeat constructor.
  - left. split; reflexivity.
Defined.

(** X7.  A literal whose context yields the empty text as field is not
    type-checked: the check returns, even when the empty string is a key
    of the schema with another type. *)
Theorem empty_field_not_checked c s ck :
  find_associated_field_and_context c = Returned (Some "", ck) →
  check_literal_type c s = (Returned tt, s).
Proof.
  intros Hfind. by rewrite (check_literal_type_unfold _ _ _ _ Hfind).
Qed.

Lemma empty_field_not_checked_witness :
  Edges.blank_schema !! "" = Some "integer"
  ∧ get_literal_type Edges.blank_ctx (Some "Comparison") = Some "keyword"
  ∧ check_literal_type Edges.blank_ctx (init Edges.blank_schema)
    = (Returned tt, init Edges.blank_schema).
Proof.
  split; [reflexivity |]. split; [reflexivity |].
  apply (empty_field_not_checked Edges.blank_ctx (init Edges.blank_schema)
           (Some "Comparison")).
  reflexivity.
Defined.

(** X8.  A qualified name without a parent that reads event.dataset, a key
    of the schema: the handler adds the name to [field_list] and then
    calls [getText] on the missing parent, raising the attribute error;
    nothing is added to [get_event_datasets]. *)
Theorem root_dataset_name_raises c s T :
  ancestors c = [] →
  getText (node c) = "event.dataset" →
  schema s !! "event.dataset" = Some T →
  enterQualifiedName c s = (Raised no_getText, add_field "event.dataset" s).
Proof.
  intros Hanc Htxt Hsch. unfold enterQualifiedName, parent_isinstance, parentCtx.
  rewrite Hanc, Htxt. cbn [negb]. rewrite !bind_eq. cbn. by rewrite Hsch.
Qed.

Lemma root_dataset_name_raises_witness :
  enterQualifiedName Edges.lone_ctx (init Queries.dataset_schema)
  = (Raised no_getText, Listener Queries.dataset_schema ["event.dataset"] [] []).
Proof.
  apply (root_dataset_name_raises Edges.lone_ctx
           (init Queries.dataset_schema) "keyword"); reflexivity.
Defined.

(** X9.  The handler of a literal, of any of the nine literal classes,
    leaves the listener exactly as it found it, whether the check returns
    or raises. *)
Theorem literal_handlers_leave_listener c s cls :
  class_of (node c) = Some cls →
  cls ∈ (literal_types.*1 ++ untyped_literals) →
  (enterRule c s).2 = s.
Proof.
  intros Hcls Hin. unfold enterRule. rewrite Hcls.
  apply list_elem_of_In in Hin. simpl in Hin.
  destruct Hin as [<- | [<- | [<- | [<- | [<- | [<- | [<- | [<- | [<- | []]
    ]]]]]]]]; apply check_literal_type_state.
Qed.

Lemma literal_handlers_leave_listener_witness :
  (enterRule Queries.five_ctx (init Queries.count_schema)).1
  = Raised (ValueError
      "Field 'count' in context 'Comparison'expects type 'integer', but got 'keyword'")
  ∧ (enterRule Queries.five_ctx (init Queries.count_schema)).2
    = init Queries.count_schema.
Proof.
  split; [reflexivity |].
  apply (literal_handlers_leave_listener Queries.five_ctx
           (init Queries.count_schema) StringLiteralContext).
  - reflexivity.
  - apply list_elem_of_here.
Defined.

(** X10.  [get_event_dataset] looks only at the nearest where command
    among the ancestors, whatever lies above it: it returns the text of
    the node the accessor gives there, raises the attribute error when the
    accessor gives [None], and passes on what the accessor raises; without
    a where command among the ancestors it returns [None]. *)
Theorem get_event_dataset_nearest_where sourceIdentifier c :
  (Forall (λ a, isinstance a WhereCommandContext = false) (ancestors c) →
   get_event_dataset sourceIdentifier c = Returned None)
  ∧ (∀ pre p rest,
       ancestors c = pre ++ p :: rest →
       Forall (λ a, isinstance a WhereCommandContext = false) pre →
       isinstance p WhereCommandContext = true →
       get_event_dataset sourceIdentifier c
       = match sourceIdentifier p with
         | Raised e => Raised e
         | Returned None => Raised no_getText
         | Returned (Some n) => Returned (Some (getText n))
         end).
Proof.
  unfold get_event_dataset.
  assert (∀ pre ps,
            Forall (λ a, isinstance a WhereCommandContext = false) pre →
            search_where sourceIdentifier (pre ++ ps)
            = search_where sourceIdentifier ps) as Hskip.
  { intros pre ps. induction 1 as [| a pre Ha _ IH]; [done |].
    cbn. by rewrite Ha. }
  split.
  - intros Hall. rewrite <-(app_nil_r (ancestors c)). by rewrite Hskip.
  - intros pre p rest -> Hpre Hp. rewrite Hskip by done. cbn. by rewrite Hp.
Qed.

Lemma get_event_dataset_nearest_where_witness :
  get_event_dataset Edges.first_source Edges.sourced_ctx
  = Returned (Some "nginx")
  ∧ get_event_dataset Edges.first_source Queries.null_ctx = Raised no_getText
  ∧ get_event_dataset Edges.first_source Edges.lone_ctx = Returned None.
Proof.
  split; [| split].
  - apply (proj2 (get_event_dataset_nearest_where Edges.first_source
                    Edges.sourced_ctx)
             [Queries.other "constantDefault" [Queries.null_lit];
              Queries.constant Queries.null_lit; Queries.null_cmp;
              Queries.other "booleanDefault" [Queries.null_cmp]]
             Edges.sourced_where
             [Queries.where_cmd Queries.null_cmp]).
    + reflexivity.
    + repeat constructor.
    + reflexivity.
  - apply (proj2 (get_event_dataset_nearest_where Edges.first_source
                    Queries.null_ctx)
             [Queries.other "constantDefault" [Queries.null_lit];
              Queries.constant Queries.null_lit; Queries.null_cmp;
              Queries.other "booleanDefault" [Queries.null_cmp]]
             (Queries.where_cmd Queries.null_cmp)
             (Queries.above_command (Queries.from_cmd "logs-*")
                (Queries.where_cmd Queries.null_cmp))).
    + reflexivity.
    + repeat constructor.
    + reflexivity.
  - apply (proj1 (get_event_dataset_nearest_where Edges.first_source
                    Edges.lone_ctx)).
    constructor.
Defined.

(** ** The verdict of a pass *)

Lemma check_literal_type_verdict c s1 s2 :
  schema s1 = schema s2 →
  (check_literal_type c s1).1 = (check_literal_type c s2).1.
Proof.
  intros Hsch.
  destruct (find_associated_field_and_context c) as [[fld ck] | e] eqn:Hfind.
  - rewrite !(check_literal_type_unfold _ _ _ _ Hfind), Hsch.
    destruct fld as [f |]; [| done]. destruct (truthy (Some f)); [| done].
    destruct (schema s2 !! f); [| done]. by case_bool_decide.
  - by rewrite !(check_literal_type_propagates _ _ _ Hfind).
Qed.

Lemma enterRule_verdict c s1 s2 :
  schema s1 = schema s2 → (enterRule c s1).1 = (enterRule c s2).1.
Proof.
  intros Hsch.
  unfold enterRule, enterNullLiteral, enterQualifiedIntegerLiteral,
    enterDecimalLiteral, enterIntegerLiteral, enterBooleanLiteral,
    enterStringLiteral, enterNumericArrayLiteral, enterBooleanArrayLiteral,
    enterStringArrayLiteral.
  destruct (class_of (node c)) as [[] |];
    try (by apply check_literal_type_verdict); try done.
  - unfold enterQualifiedName.
    destruct (parent_isinstance c EvalCommandContext); [done |].
    cbn [negb]. rewrite !bind_eq. cbn. rewrite Hsch.
    destruct (schema s2 !! getText (node c)); [| done].
    case_bool_decide; [| done]. by destruct (parentCtx c).
  - destruct (parent_isinstance c FromCommandContext) eqn:Hpar.
    + by rewrite !enterSourceIdentifier_from.
    + rewrite !(enterSourceIdentifier_field _ _ Hpar). cbn. by rewrite Hsch.
Qed.

Lemma for_each_enterRule_verdict l :
  ∀ s1 s2,
    schema s1 = schema s2 →
    (for_each enterRule l s1).1 = (for_each enterRule l s2).1.
Proof.
  induction l as [| c l IH]; intros s1 s2 Hsch; [done |].
  cbn [for_each]. rewrite !bind_eq.
  pose proof (enterRule_verdict c s1 s2 Hsch) as Hc.
  pose proof (appends_only_enterRule c s1) as [H1 _ _ _].
  pose proof (appends_only_enterRule c s2) as [H2 _ _ _].
  destruct (enterRule c s1) as [[[] | e1] s1'],
           (enterRule c s2) as [[[] | e2] s2']; cbn in *; try done.
  apply IH. congruence.
Qed.

(** X11.  Whether a pass returns or raises, and with which error, depends
    on the listener only through its schema: the lists it already holds
    play no part. *)
Theorem verdict_depends_on_schema_only ps t s1 s2 :
  schema s1 = schema s2 →
  (walk ps t s1).1 = (walk ps t s2).1.
Proof.
  intros Hsch. rewrite !walk_for_each. by apply for_each_enterRule_verdict.
Qed.

Lemma verdict_depends_on_schema_only_witness :
  (walk [] Queries.count_query
     (Listener Queries.count_schema ["old"] ["older"] ["oldest"])).1
  = (validate Queries.count_schema Queries.count_query).1.
Proof.
  apply (verdict_depends_on_schema_only [] Queries.count_query
           (Listener Queries.count_schema ["old"] ["older"] ["oldest"])
           (init Queries.count_schema)).
  reflexivity.
Defined.
